(** * sparse::Matrix — an infinite two-dimensional sparse matrix

    A verification development for [include/sparse/matrix.hpp].

    The class template [Matrix<T, Default, Index>] keeps its occupied cells in
    a [std::map<Key, T>] ordered by [Key::operator<].  The ordered map is
    modelled by the sequence of its entries in iteration order; the three map
    primitives the class uses ([find], [operator[]] followed by an assignment,
    and [erase]) walk that sequence with the comparator only, the way the tree
    does.  A map state is a sequence that ascends strictly ([ascending]).

    [Index] is a signed integer type (by default [std::int64_t]).  The class
    never computes with coordinates, it only compares them, so coordinates
    are integers of [Z] and no wrap-around can occur.

    [T] is the type of a non-type template parameter; [v == Default] is the
    built-in equality of such a type, modelled by a decision procedure for
    equality on [T]. *)

From Stdlib Require Import ZArith Sorted.
From stdpp Require Import list.

Local Open Scope Z_scope.

Definition Index : Type := Z.

(** ** [struct Key] *)

Module Key.

Record t : Type := mk { x : Index; y : Index }.

(** [bool operator<(const Key& rhs) const noexcept] *)
Definition lt (lhs rhs : t) : bool :=
  (x lhs <? x rhs) || ((x lhs =? x rhs) && (y lhs <? y rhs)).

(** The three outcomes a search step draws from the comparator. *)
Inductive ordering : Type := Before | Same | After.

Definition cmp (k k' : t) : ordering :=
  if lt k k' then Before else if lt k' k then After else Same.

(** What each outcome of a comparison step means. *)
Inductive cmp_spec (k k' : t) : ordering -> Prop :=
| cmp_before : lt k k' = true -> lt k' k = false ->
               cmp_spec k k' Before
| cmp_same : k = k' -> cmp_spec k k' Same
| cmp_after : lt k' k = true -> lt k k' = false ->
              cmp_spec k k' After.

End Key.

(** ** [using Map = std::map<Key, T>] *)

Abbreviation Map T := (list (Key.t * T)) (only parsing).

Section Matrix.

Context {T : Type} `{EqDecision T}.
Variable Default : T.

(** [data_.find(k)]: the mapped value, or [None] for [data_.end()]. *)
Fixpoint map_find (k : Key.t) (m : Map T) : option T :=
  match m with
  | [] => None
  | (k', v') :: rest =>
      match Key.cmp k k' with
      | Key.Before => None
      | Key.Same => Some v'
      | Key.After => map_find k rest
      end
  end.

(** [data_[k] = v]: [operator[]] finds the entry of [k] or inserts one,
    then the assignment stores [v] in it.  An entry that exists keeps its
    key. *)
Fixpoint map_assign (k : Key.t) (v : T) (m : Map T) : Map T :=
  match m with
  | [] => [(k, v)]
  | (k', v') :: rest =>
      match Key.cmp k k' with
      | Key.Before => (k, v) :: (k', v') :: rest
      | Key.Same => (k', v) :: rest
      | Key.After => (k', v') :: map_assign k v rest
      end
  end.

(** [data_.erase(it)] for the position [it] that [data_.find(k)] gave. *)
Fixpoint map_erase (k : Key.t) (m : Map T) : Map T :=
  match m with
  | [] => []
  | (k', v') :: rest =>
      match Key.cmp k k' with
      | Key.Before => (k', v') :: rest
      | Key.Same => rest
      | Key.After => (k', v') :: map_erase k rest
      end
  end.

(** The keys of a map state ascend strictly. *)
Fixpoint ascending (m : Map T) : bool :=
  match m with
  | [] => true
  | (k, _) :: rest =>
      match rest with
      | [] => true
      | (k', _) :: _ => Key.lt k k' && ascending rest
      end
  end.

(** ** [class Matrix] *)

Record Matrix : Type := mkMatrix { data_ : Map T }.

(** A default-constructed matrix. *)
Definition Matrix_new : Matrix := {| data_ := [] |}.

(** [void set(Index x, Index y, const T& v)] *)
Definition Matrix_set (x y : Index) (v : T) (m : Matrix) : Matrix :=
  if decide (v = Default) then
    match map_find (Key.mk x y) (data_ m) with
    | Some _ => {| data_ := map_erase (Key.mk x y) (data_ m) |}
    | None => m
    end
  else {| data_ := map_assign (Key.mk x y) v (data_ m) |}.

(** [const T* find(Index x, Index y) const noexcept]; [None] is [nullptr]. *)
Definition Matrix_find (x y : Index) (m : Matrix) : option T :=
  map_find (Key.mk x y) (data_ m).

(** [std::size_t size() const noexcept] *)
Definition Matrix_size (m : Matrix) : nat := length (data_ m).

(** The container states: those an ordered map can be in. *)
Definition wf (m : Matrix) : Prop := ascending (data_ m) = true.

(** No entry holds [Default]. *)
Definition no_default (m : Matrix) : Prop :=
  Forall (fun kv => snd kv <> Default) (data_ m).

(** ** The proxies

    A proxy holds a reference [m_] to the matrix and its coordinates.  There
    is one matrix; its state is threaded through every member function, and
    a proxy is the coordinates it is bound to.  A member function is a
    computation [Op A]: from the state of the matrix to a result and the
    state it leaves. *)

Definition Op (A : Type) : Type := Matrix -> A * Matrix.

Definition ret {A : Type} (a : A) : Op A := fun m => (a, m).

Definition bind {A B : Type} (c : Op A) (f : A -> Op B) : Op B :=
  fun m => let (a, m') := c m in f a m'.

Definition result {A : Type} (c : Op A) (m : Matrix) : A := fst (c m).
Definition final {A : Type} (c : Op A) (m : Matrix) : Matrix := snd (c m).

Record RowProxy : Type := mkRowProxy { row_x_ : Index }.

Record CellProxy : Type := mkCellProxy { x_ : Index; y_ : Index }.

(** [RowProxy operator[](Index x)] of [Matrix] *)
Definition Matrix_index (x : Index) : Op RowProxy :=
  ret (mkRowProxy x).

(** [CellProxy operator[](Index y)] of [RowProxy] *)
Definition RowProxy_index (r : RowProxy) (y : Index) : Op CellProxy :=
  ret (mkCellProxy (row_x_ r) y).

(** [operator T() const] of [CellProxy] *)
Definition CellProxy_read (c : CellProxy) : Op T :=
  fun m =>
    match Matrix_find (x_ c) (y_ c) m with
    | Some p => (p, m)
    | None => (Default, m)
    end.

(** [CellProxy& operator=(const T& v)] and [CellProxy& operator=(T&& v)]:
    both call [m_.set(x_, y_, v)] and return [*this]. *)
Definition CellProxy_assign (c : CellProxy) (v : T) : Op CellProxy :=
  fun m => (c, Matrix_set (x_ c) (y_ c) v m).

(** [matrix[x][y]] *)
Definition cell (x y : Index) : Op CellProxy :=
  bind (Matrix_index x) (fun r => RowProxy_index r y).

(** [matrix[x][y] = v;] *)
Definition write (x y : Index) (v : T) : Op CellProxy :=
  bind (cell x y) (fun c => CellProxy_assign c v).

(** [T(matrix[x][y])] *)
Definition read (x y : Index) : Op T :=
  bind (cell x y) CellProxy_read.

(** ** [class iterator]

    [it_] is a [Map::const_iterator]: a position in the iteration order of
    [data_], counted from the first entry; [data_.cend()] is the position
    after the last one. *)

Record iterator : Type := mkIterator { it_ : nat }.

Definition Matrix_begin (m : Matrix) : iterator := mkIterator 0.
Definition Matrix_end (m : Matrix) : iterator := mkIterator (length (data_ m)).

(** [value_type operator*() const]; there is no entry to read at
    [end()], where the source has undefined behaviour: [None]. *)
Definition iterator_deref (m : Matrix) (i : iterator)
  : option (Index * Index * T) :=
  match data_ m !! it_ i with
  | Some (k, v) => Some (Key.x k, Key.y k, v)
  | None => None
  end.

(** [iterator& operator++()].  [++it_] is defined for the positions before
    [end()] only, and is used at no other. *)
Definition iterator_incr (i : iterator) : iterator := mkIterator (S (it_ i)).

(** [bool operator!=(const iterator& r) const] *)
Definition iterator_neq (i r : iterator) : bool :=
  negb (Nat.eqb (it_ i) (it_ r)).

(** [for (auto t : matrix) ...]: the triples the loop
    [for (it = begin(); it != end(); ++it) { t = *it; ... }] visits.  The
    loop is given [fuel] iterations; [None] when they do not suffice or a
    position cannot be read. *)
Fixpoint traverse_from (fuel : nat) (m : Matrix) (i : iterator)
  : option (list (Index * Index * T)) :=
  if iterator_neq i (Matrix_end m) then
    match fuel with
    | O => None
    | S fuel' =>
        match iterator_deref m i with
        | Some t =>
            match traverse_from fuel' m (iterator_incr i) with
            | Some ts => Some (t :: ts)
            | None => None
            end
        | None => None
        end
    end
  else Some [].

Definition traverse (fuel : nat) (m : Matrix)
  : option (list (Index * Index * T)) :=
  traverse_from fuel m (Matrix_begin m).

(** ** Sequences of operations on the container *)

Inductive operation : Type :=
| Write (x y : Index) (v : T)
| Read (x y : Index)
| Size
| Traverse.

Definition perform (o : operation) (m : Matrix) : Matrix :=
  match o with
  | Write x y v => final (write x y v) m
  | Read x y => final (read x y) m
  | Size => m
  | Traverse => m
  end.

Definition perform_all (os : list operation) (m : Matrix) : Matrix :=
  fold_left (fun m' o => perform o m') os m.

(** [((matrix[x][y] = a) = b) = c;]: each assignment is applied to the
    proxy that the one before it returned. *)
Definition chained (x y : Index) (a b c : T) : Op CellProxy :=
  bind (cell x y) (fun h0 =>
  bind (CellProxy_assign h0 a) (fun h1 =>
  bind (CellProxy_assign h1 b) (fun h2 =>
  CellProxy_assign h2 c))).

(** The order of the triples of a traversal: by [x], then by [y]. *)
Definition triple_lt (s t : Index * Index * T) : Prop :=
  let '(sx, sy, _) := s in
  let '(tx, ty, _) := t in
  sx < tx \/ (sx = tx /\ sy < ty).

(** ** Const qualification

    What the compiler accepts depends on the class of an object expression
    and on whether it is const-qualified.  [member_type] is the member
    selection of the classes as they are declared: the const and non-const
    overloads of the two [operator[]], the conversion, the assignment (a
    non-const member function), and the copy constructor that the compiler
    declares for the proxy classes, which initialises a new proxy object
    from a (const) proxy, as in [auto c = matrix[x][y];].  [None] is an
    ill-formed call. *)

Inductive cv : Type := NonConst | Const.

Inductive class : Type := CMatrix | CRowProxy | CCellProxy | CT.

Inductive member : Type :=
| Subscript (i : Index)
| Copy
| Convert
| Assign (v : T).

Definition member_type (mb : member) (q : cv) (c : class)
  : option (cv * class) :=
  match c, mb with
  | CMatrix, Subscript _ =>
      match q with
      | NonConst => Some (NonConst, CRowProxy)
      | Const => Some (Const, CRowProxy)
      end
  | CRowProxy, Subscript _ =>
      match q with
      | NonConst => Some (NonConst, CCellProxy)
      | Const => Some (Const, CCellProxy)
      end
  | CRowProxy, Copy => Some (NonConst, CRowProxy)
  | CCellProxy, Copy => Some (NonConst, CCellProxy)
  | CCellProxy, Convert => Some (NonConst, CT)
  | CCellProxy, Assign _ =>
      match q with
      | NonConst => Some (NonConst, CCellProxy)
      | Const => None
      end
  | _, _ => None
  end.

(** A chain of member calls, each on the result of the one before it. *)
Fixpoint chain_type (mbs : list member) (q : cv) (c : class)
  : option (cv * class) :=
  match mbs with
  | [] => Some (q, c)
  | mb :: rest =>
      match member_type mb q c with
      | Some (q', c') => chain_type rest q' c'
      | None => None
      end
  end.

(** The objects the chain passes through, and what each call does.  Both
    overloads of an [operator[]] build the same proxy: the const ones bind
    it to the matrix through [const_cast<Matrix&>]. *)
Inductive object : Type :=
| TheMatrix
| ARow (r : RowProxy)
| ACell (c : CellProxy)
| AValue (v : T).

Definition class_of (o : object) : class :=
  match o with
  | TheMatrix => CMatrix
  | ARow _ => CRowProxy
  | ACell _ => CCellProxy
  | AValue _ => CT
  end.

Definition member_call (mb : member) (o : object) : Op object :=
  match o, mb with
  | TheMatrix, Subscript x => bind (Matrix_index x) (fun r => ret (ARow r))
  | ARow r, Subscript y => bind (RowProxy_index r y) (fun c => ret (ACell c))
  | ACell c, Convert => bind (CellProxy_read c) (fun v => ret (AValue v))
  | ACell c, Assign v => bind (CellProxy_assign c v) (fun c' => ret (ACell c'))
  | _, _ => ret o
  end.

Fixpoint chain_call (mbs : list member) (o : object) : Op object :=
  match mbs with
  | [] => ret o
  | mb :: rest => bind (member_call mb o) (chain_call rest)
  end.

(** A chain writes when it reaches [operator=], which is the only caller
    of [set]. *)
Definition is_assign (mb : member) : bool :=
  match mb with Assign _ => true | _ => false end.

Definition is_copy (mb : member) : bool :=
  match mb with Copy => true | _ => false end.

(** ** The other members of [class iterator] *)




(** ** Counting writes *)

(** The operation is a write of a value other than [Default]: the only
    operation through which [set] reaches [data_[{x,y}] = v]. *)
Definition stores (o : operation) : bool :=
  match o with
  | Write _ _ v => if decide (v = Default) then false else true
  | _ => false
  end.

(** [(... ((matrix[x][y] = v1) = v2) ... = vn)] as a chain of member calls. *)
Definition assignments (x y : Index) (vs : list T) : list member :=
  Subscript x :: Subscript y :: (Assign <$> vs).

(** [matrix[x][y] = v;] for a triple [(x, y, v)], as in
    [for (auto t : other) { tie(x, y, v) = t; matrix[x][y] = v; }]. *)
Definition write_triple (t : Index * Index * T) : operation :=
  Write (fst (fst t)) (snd (fst t)) (snd t).

End Matrix.

(** * Properties *)

(** ** The comparator is a strict total order *)

Module KeyFacts.

Lemma lt_irrefl (k : Key.t) : Key.lt k k = false.
Proof. destruct k as [a b]. unfold Key.lt. simpl. lia. Qed.

Lemma lt_trans (a b c : Key.t) :
  Key.lt a b = true -> Key.lt b c = true -> Key.lt a c = true.
Proof.
  destruct a as [a1 a2], b as [b1 b2], c as [c1 c2].
  unfold Key.lt. simpl. lia.
Qed.

Lemma lt_asym (a b : Key.t) : Key.lt a b = true -> Key.lt b a = false.
Proof.
  destruct a as [a1 a2], b as [b1 b2]. unfold Key.lt. simpl. lia.
Qed.

Lemma lt_total (a b : Key.t) :
  Key.lt a b = false -> Key.lt b a = false -> a = b.
Proof.
  destruct a as [a1 a2], b as [b1 b2]. unfold Key.lt. simpl. intros H1 H2.
  assert (a1 = b1 /\ a2 = b2) as [-> ->] by lia. reflexivity.
Qed.

Lemma cmp_case (k k' : Key.t) : Key.cmp_spec k k' (Key.cmp k k').
Proof.
  unfold Key.cmp.
  destruct (Key.lt k k') eqn:E1.
  - constructor; [assumption | now apply lt_asym].
  - destruct (Key.lt k' k) eqn:E2.
    + now constructor.
    + constructor. now apply lt_total.
Qed.

Lemma cmp_refl (k : Key.t) : Key.cmp k k = Key.Same.
Proof. unfold Key.cmp. now rewrite lt_irrefl. Qed.

Lemma cmp_lt (k k' : Key.t) : Key.lt k k' = true -> Key.cmp k k' = Key.Before.
Proof. unfold Key.cmp. now intros ->. Qed.

Lemma cmp_gt (k k' : Key.t) : Key.lt k' k = true -> Key.cmp k k' = Key.After.
Proof. unfold Key.cmp. intros E. now rewrite (lt_asym _ _ E), E. Qed.

End KeyFacts.

(** ** The ordered map *)

Section MapFacts.

Context {T : Type}.
Implicit Types (k : Key.t) (v : T) (m : Map T).

Local Ltac by_cmp k k' :=
  destruct (KeyFacts.cmp_case k k') as [?Hlt ?Hnlt | ?Heq | ?Hgt ?Hngt];
  try subst.

Lemma ascending_cons k v m :
  ascending ((k, v) :: m) = true <->
  Forall (fun kv => Key.lt k (fst kv) = true) m /\ ascending m = true.
Proof.
  revert k v. induction m as [| [k1 v1] m IH]; intros k v.
  - simpl. split; [intros _; split; [constructor | reflexivity] | reflexivity].
  - change (ascending ((k, v) :: (k1, v1) :: m))
      with (Key.lt k k1 && ascending ((k1, v1) :: m)).
    rewrite andb_true_iff, Forall_cons. simpl fst. split.
    + intros [Hk Hm]. repeat split; try assumption.
      apply IH in Hm as [Hall _].
      eapply Forall_impl; [exact Hall |]. intros [k2 v2]. simpl.
      now apply KeyFacts.lt_trans.
    + intros [[Hk _] Hm]. now split.
Qed.

Lemma ascending_tail k v m : ascending ((k, v) :: m) = true -> ascending m = true.
Proof. intros H. now apply ascending_cons in H. Qed.

Lemma find_above k m :
  Forall (fun kv => Key.lt k (fst kv) = true) m -> map_find k m = None.
Proof.
  destruct m as [| [k1 v1] m]; [reflexivity |].
  intros H. apply Forall_cons in H as [H _]. simpl in *.
  now rewrite (KeyFacts.cmp_lt _ _ H).
Qed.

Lemma above_weaken k k' m :
  Key.lt k' k = true ->
  Forall (fun kv => Key.lt k (fst kv) = true) m ->
  Forall (fun kv => Key.lt k' (fst kv) = true) m.
Proof.
  intros Hk H. eapply Forall_impl; [exact H |].
  intros [k2 v2]. simpl. now apply KeyFacts.lt_trans.
Qed.

(** *** Lookup after an update *)

Lemma find_assign_same k v m : map_find k (map_assign k v m) = Some v.
Proof.
  induction m as [| [k1 v1] m IH]; simpl.
  - now rewrite KeyFacts.cmp_refl.
  - by_cmp k k1; simpl.
    + now rewrite KeyFacts.cmp_refl.
    + now rewrite KeyFacts.cmp_refl.
    + now rewrite (KeyFacts.cmp_gt _ _ Hgt).
Qed.

Lemma find_assign_other k k' v m :
  k' <> k -> map_find k' (map_assign k v m) = map_find k' m.
Proof.
  intros Hne. induction m as [| [k1 v1] m IH]; simpl.
  - by_cmp k' k; congruence.
  - by_cmp k k1; simpl.
    + by_cmp k' k; try congruence.
      now rewrite (KeyFacts.cmp_lt k' k1) by (eapply KeyFacts.lt_trans; eassumption).
    + by_cmp k' k1; congruence.
    + by_cmp k' k1; congruence.
Qed.

Lemma find_erase_same k m :
  ascending m = true -> map_find k (map_erase k m) = None.
Proof.
  induction m as [| [k1 v1] m IH]; [reflexivity |].
  intros Hm. apply ascending_cons in Hm as [Habove Hm]. simpl.
  by_cmp k k1; simpl.
  - now rewrite (KeyFacts.cmp_lt _ _ Hlt).
  - now apply find_above.
  - rewrite (KeyFacts.cmp_gt _ _ Hgt). now apply IH.
Qed.

Lemma find_erase_other k k' m :
  k' <> k -> ascending m = true ->
  map_find k' (map_erase k m) = map_find k' m.
Proof.
  intros Hne. induction m as [| [k1 v1] m IH]; [reflexivity |].
  intros Hm. apply ascending_cons in Hm as [Habove Hm]. simpl.
  by_cmp k k1; simpl.
  - reflexivity.
  - by_cmp k' k1; try congruence.
    apply find_above. eapply above_weaken; eassumption.
  - by_cmp k' k1; try congruence. now apply IH.
Qed.

(** *** The size after an update *)

Lemma length_assign_absent k v m :
  map_find k m = None -> length (map_assign k v m) = S (length m).
Proof.
  induction m as [| [k1 v1] m IH]; simpl; [reflexivity |].
  by_cmp k k1; simpl; try congruence.
  intros Hf. now rewrite IH.
Qed.

Lemma length_assign_present k v m :
  is_Some (map_find k m) -> length (map_assign k v m) = length m.
Proof.
  induction m as [| [k1 v1] m IH]; simpl.
  - intros [w Hw]. discriminate.
  - by_cmp k k1; simpl.
    + intros [w Hw]. discriminate.
    + reflexivity.
    + intros Hf. now rewrite IH.
Qed.

Lemma length_erase_present k m :
  is_Some (map_find k m) -> S (length (map_erase k m)) = length m.
Proof.
  induction m as [| [k1 v1] m IH]; simpl.
  - intros [w Hw]. discriminate.
  - by_cmp k k1; simpl.
    + intros [w Hw]. discriminate.
    + reflexivity.
    + intros Hf. now rewrite IH.
Qed.

(** *** What an update keeps *)

Lemma Forall_assign (P : Key.t * T -> Prop) k v m :
  P (k, v) -> Forall P m -> Forall P (map_assign k v m).
Proof.
  intros Hkv. induction m as [| [k1 v1] m IH]; simpl; intros Hm.
  - now repeat constructor.
  - apply Forall_cons in Hm as [H1 Hm].
    by_cmp k k1; repeat (constructor; try assumption). now apply IH.
Qed.

Lemma Forall_erase (P : Key.t * T -> Prop) k m :
  Forall P m -> Forall P (map_erase k m).
Proof.
  induction m as [| [k1 v1] m IH]; simpl; intros Hm; [constructor |].
  apply Forall_cons in Hm as [H1 Hm].
  by_cmp k k1; try assumption; constructor; try assumption. now apply IH.
Qed.

Lemma ascending_assign k v m :
  ascending m = true -> ascending (map_assign k v m) = true.
Proof.
  induction m as [| [k1 v1] m IH]; [reflexivity |].
  intros Hm. pose proof Hm as Hm0. apply ascending_cons in Hm as [Habove Hm].
  simpl. by_cmp k k1.
  - apply ascending_cons. split; [| assumption].
    constructor; [assumption |]. eapply above_weaken; eassumption.
  - now apply ascending_cons.
  - apply ascending_cons. split; [| now apply IH].
    now apply (Forall_assign (fun kv => Key.lt k1 (fst kv) = true)).
Qed.

Lemma ascending_erase k m :
  ascending m = true -> ascending (map_erase k m) = true.
Proof.
  induction m as [| [k1 v1] m IH]; [reflexivity |].
  intros Hm. pose proof Hm as Hm0. apply ascending_cons in Hm as [Habove Hm].
  simpl. by_cmp k k1; try assumption.
  apply ascending_cons. split; [| now apply IH].
  now apply Forall_erase.
Qed.

(** *** Lookup and membership *)

Lemma find_elem_of k v m :
  ascending m = true -> (map_find k m = Some v <-> (k, v) ∈ m).
Proof.
  induction m as [| [k1 v1] m IH].
  - intros _. simpl. split; [discriminate | intros H; inversion H].
  - intros Hm. apply ascending_cons in Hm as [Habove Hm].
    rewrite elem_of_cons. simpl. by_cmp k k1.
    + split; [discriminate |]. intros [[= -> ->] | Hin].
      * rewrite KeyFacts.lt_irrefl in Hlt. discriminate.
      * rewrite Forall_forall in Habove. specialize (Habove _ Hin).
        simpl in Habove. rewrite (KeyFacts.lt_asym _ _ Habove) in Hlt.
        discriminate.
    + split.
      * intros [= ->]. now left.
      * intros [[= ->] | Hin]; [reflexivity |].
        rewrite Forall_forall in Habove. specialize (Habove _ Hin).
        simpl in Habove. now rewrite KeyFacts.lt_irrefl in Habove.
    + rewrite (IH Hm). split; [now right |].
      intros [[= -> ->] | Hin]; [| assumption].
      rewrite KeyFacts.lt_irrefl in Hgt. discriminate.
Qed.

(** *** Erasing and storing again *)

Lemma assign_above k v m :
  Forall (fun kv => Key.lt k (fst kv) = true) m ->
  map_assign k v m = (k, v) :: m.
Proof.
  destruct m as [| [k1 v1] m]; [reflexivity |].
  intros H. apply Forall_cons in H as [H _]. simpl in *.
  now rewrite (KeyFacts.cmp_lt _ _ H).
Qed.

Lemma assign_erase_assign k a c m :
  ascending m = true ->
  map_assign k c (map_erase k (map_assign k a m)) = map_assign k c m.
Proof.
  induction m as [| [k1 v1] m IH].
  - intros _. simpl. now rewrite KeyFacts.cmp_refl.
  - intros Hm. apply ascending_cons in Hm as [Habove Hm].
    simpl. destruct (KeyFacts.cmp_case k k1) as [Hlt _ | -> | Hgt _]; simpl.
    + rewrite KeyFacts.cmp_refl. simpl. now rewrite (KeyFacts.cmp_lt _ _ Hlt).
    + rewrite KeyFacts.cmp_refl. now apply assign_above.
    + rewrite (KeyFacts.cmp_gt _ _ Hgt). simpl.
      rewrite (KeyFacts.cmp_gt _ _ Hgt). now rewrite IH.
Qed.

(** *** The entries in iteration order *)

Lemma ascending_triples m :
  ascending m = true ->
  StronglySorted triple_lt ((fun kv => (Key.x (fst kv), Key.y (fst kv), snd kv)) <$> m).
Proof.
  induction m as [| [k1 v1] m IH]; [constructor |].
  intros Hm. apply ascending_cons in Hm as [Habove Hm].
  rewrite fmap_cons. constructor; [now apply IH |].
  apply Forall_fmap. eapply Forall_impl; [exact Habove |].
  intros [[x2 y2] v2]. destruct k1 as [x1 y1].
  unfold Key.lt, triple_lt. simpl. lia.
Qed.

Lemma triple_lt_irrefl (t : Index * Index * T) : ~ triple_lt t t.
Proof. destruct t as [[tx ty] tv]. unfold triple_lt. lia. Qed.

Lemma triples_NoDup (ts : list (Index * Index * T)) :
  StronglySorted triple_lt ts -> NoDup (fst <$> ts).
Proof.
  induction 1 as [| t ts Hs IH Hall]; rewrite ?fmap_cons; constructor;
    [| assumption].
  intros Hin. apply list_elem_of_fmap in Hin as [t' [Hfst Hin]].
  rewrite Forall_forall in Hall. specialize (Hall t' Hin).
  destruct t as [[tx ty] tv], t' as [[tx' ty'] tv']. simpl in Hfst.
  injection Hfst as -> ->. exact (triple_lt_irrefl (tx', ty', tv) Hall).
Qed.

End MapFacts.

(** ** The matrix *)

Section MatrixFacts.

Context {T : Type} `{EqDecision T}.
Variable Default : T.

Local Abbreviation Matrix := (@Matrix T).
Local Abbreviation Matrix_set := (Matrix_set Default).
Local Abbreviation write := (write Default).
Local Abbreviation read := (read Default).
Local Abbreviation CellProxy_read := (CellProxy_read Default).
Local Abbreviation CellProxy_assign := (CellProxy_assign Default).
Local Abbreviation no_default := (no_default Default).
Local Abbreviation perform := (perform Default).
Local Abbreviation perform_all := (perform_all Default).

Implicit Types (m : Matrix) (x y : Index) (v : T).

Lemma write_final x y v m : final (write x y v) m = Matrix_set x y v m.
Proof. reflexivity. Qed.

Lemma read_result x y m :
  result (read x y) m = default Default (Matrix_find x y m).
Proof.
  unfold result, read, cell, bind, CellProxy_read. simpl.
  now destruct (Matrix_find x y m).
Qed.

Lemma read_final x y m : final (read x y) m = m.
Proof.
  unfold final, read, cell, bind, CellProxy_read. simpl.
  now destruct (Matrix_find x y m).
Qed.

(** *** [set] keeps the map ordered and free of [Default] *)

Lemma Matrix_set_wf x y v m : wf m -> wf (Matrix_set x y v m).
Proof.
  unfold wf, Matrix_set. intros Hm.
  destruct (decide (v = Default)); simpl.
  - destruct (map_find _ _); simpl; [now apply ascending_erase | assumption].
  - now apply ascending_assign.
Qed.

Lemma Matrix_set_no_default x y v m :
  no_default m -> no_default (Matrix_set x y v m).
Proof.
  unfold no_default, Matrix_set. intros Hm.
  destruct (decide (v = Default)); simpl.
  - destruct (map_find _ _); simpl; [now apply Forall_erase | assumption].
  - now apply Forall_assign.
Qed.

Lemma perform_wf o m : wf m -> wf (perform o m).
Proof.
  destruct o; simpl; intros Hm; try assumption.
  - rewrite write_final. now apply Matrix_set_wf.
  - now rewrite read_final.
Qed.

Lemma perform_no_default o m : no_default m -> no_default (perform o m).
Proof.
  destruct o; simpl; intros Hm; try assumption.
  - rewrite write_final. now apply Matrix_set_no_default.
  - now rewrite read_final.
Qed.

Lemma perform_all_wf os m : wf m -> wf (perform_all os m).
Proof.
  revert m. induction os as [| o os IH]; intros m Hm; [assumption |].
  simpl. apply IH. now apply perform_wf.
Qed.

Lemma perform_all_no_default os m :
  no_default m -> no_default (perform_all os m).
Proof.
  revert m. induction os as [| o os IH]; intros m Hm; [assumption |].
  simpl. apply IH. now apply perform_no_default.
Qed.

Lemma Matrix_new_wf : wf (@Matrix_new T).
Proof. reflexivity. Qed.

(** *** Lookup after [set] *)

Lemma find_set_same x y v m :
  wf m ->
  Matrix_find x y (Matrix_set x y v m)
  = if decide (v = Default) then None else Some v.
Proof.
  unfold wf, Matrix_find, Matrix_set. intros Hm.
  destruct (decide (v = Default)); simpl.
  - destruct (map_find (Key.mk x y) (data_ m)) eqn:E; simpl;
    [now apply find_erase_same | exact E].
  - apply find_assign_same.
Qed.

Lemma find_set_stored x y v m :
  v <> Default -> Matrix_find x y (Matrix_set x y v m) = Some v.
Proof.
  unfold Matrix_find, Matrix_set. intros Hv.
  destruct (decide (v = Default)); [contradiction |]. apply find_assign_same.
Qed.

Lemma find_set_other x y x' y' v m :
  wf m -> (x', y') <> (x, y) ->
  Matrix_find x' y' (Matrix_set x y v m) = Matrix_find x' y' m.
Proof.
  unfold wf, Matrix_find, Matrix_set. intros Hm Hne.
  assert (Key.mk x' y' <> Key.mk x y) by congruence.
  destruct (decide (v = Default)); simpl.
  - destruct (map_find (Key.mk x y) _); simpl; [| reflexivity].
    now apply find_erase_other.
  - now apply find_assign_other.
Qed.

(** *** The assignment chain *)

Lemma chained_result x y a b c m :
  result (chained Default x y a b c) m = mkCellProxy x y.
Proof. reflexivity. Qed.

Lemma chained_final x y a b c m :
  final (chained Default x y a b c) m
  = Matrix_set x y c (Matrix_set x y b (Matrix_set x y a m)).
Proof. reflexivity. Qed.

Lemma chained_through_default x y a c m :
  wf m -> a <> Default -> c <> Default ->
  final (chained Default x y a Default c) m = final (write x y c) m.
Proof.
  intros Hm Ha Hc. rewrite chained_final, write_final.
  unfold Matrix_set at 2 3.
  destruct (decide (a = Default)) as [| _]; [contradiction |].
  destruct (decide (Default = Default)) as [_ |]; [| contradiction].
  simpl. rewrite find_assign_same.
  unfold Matrix_set. destruct (decide (c = Default)); [contradiction |].
  simpl. f_equal. now apply assign_erase_assign.
Qed.

(** *** The traversal *)

Local Abbreviation triples m :=
  ((fun kv => (Key.x (fst kv), Key.y (fst kv), snd kv)) <$> data_ m).

Lemma traverse_from_drop fuel m n :
  (n <= length (data_ m))%nat ->
  (length (data_ m) - n <= fuel)%nat ->
  traverse_from fuel m (mkIterator n)
  = Some ((fun kv => (Key.x (fst kv), Key.y (fst kv), snd kv)) <$> drop n (data_ m)).
Proof.
  revert n. induction fuel as [| fuel IH]; intros n Hn Hfuel.
  - assert (n = length (data_ m)) as -> by lia.
    simpl. unfold iterator_neq, Matrix_end. simpl.
    now rewrite Nat.eqb_refl, drop_all.
  - cbn [traverse_from]. unfold iterator_neq, Matrix_end. cbn [it_].
    destruct (Nat.eqb_spec n (length (data_ m))) as [-> | Hlt]; cbn [negb].
    + now rewrite drop_all.
    + destruct (lookup_lt_is_Some_2 (data_ m) n) as [[k v] Hkv]; [lia |].
      unfold iterator_deref, iterator_incr. cbn [it_]. rewrite Hkv.
      rewrite (IH (S n)) by lia.
      now rewrite (drop_S _ _ _ Hkv).
Qed.

Lemma traverse_all fuel m :
  (Matrix_size m <= fuel)%nat -> traverse fuel m = Some (triples m).
Proof.
  intros Hfuel. unfold traverse, Matrix_begin.
  rewrite traverse_from_drop; [reflexivity | lia |].
  unfold Matrix_size in Hfuel. lia.
Qed.

Lemma triples_find x y v m :
  wf m -> ((x, y, v) ∈ triples m <-> Matrix_find x y m = Some v).
Proof.
  intros Hm. unfold Matrix_find. rewrite (find_elem_of _ _ _ Hm).
  rewrite list_elem_of_fmap. split.
  - intros [[[kx ky] kv] [[= -> -> ->] Hin]]. exact Hin.
  - intros Hin. now exists (Key.mk x y, v).
Qed.

End MatrixFacts.

(** ** Const qualification *)

Section ConstFacts.

Context {T : Type} `{EqDecision T}.
Variable Default : T.

Lemma value_has_no_member (mbs : list (@member T)) (q : cv) :
  is_Some (chain_type mbs q CT) -> mbs = [].
Proof.
  destruct mbs as [| mb mbs]; [reflexivity |].
  simpl. destruct mb; intros [r Hr]; discriminate.
Qed.

(** A chain on a const-qualified object that copies no proxy is accepted
    only when it does not assign. *)
Lemma const_chain_never_assigns (mbs : list (@member T)) (c : class) :
  forallb (fun mb => negb (is_copy mb)) mbs = true ->
  is_Some (chain_type mbs Const c) ->
  forallb (fun mb => negb (is_assign mb)) mbs = true.
Proof.
  revert c. induction mbs as [| mb mbs IH]; intros c Hcopy Hok; [reflexivity |].
  simpl in Hcopy. apply andb_true_iff in Hcopy as [Hmb Hcopy].
  simpl in Hok. destruct mb as [i | | | v]; simpl in *; try discriminate.
  - destruct c; simpl in Hok; try (destruct Hok; discriminate); eauto.
  - destruct c; simpl in Hok; try (destruct Hok; discriminate).
    now rewrite (value_has_no_member _ _ Hok).
  - destruct c; simpl in Hok; destruct Hok; discriminate.
Qed.

(** A chain that does not assign leaves the matrix as it is. *)
Lemma chain_without_assign (mbs : list (@member T)) (o : object) (m : Matrix) :
  forallb (fun mb => negb (is_assign mb)) mbs = true ->
  final (chain_call Default mbs o) m = m.
Proof.
  revert o m. induction mbs as [| mb mbs IH]; intros o m Hmbs; [reflexivity |].
  simpl in Hmbs. apply andb_true_iff in Hmbs as [Hmb Hmbs].
  unfold final in *. simpl. unfold bind.
  destruct (member_call Default mb o m) as [o' m'] eqn:E.
  rewrite (IH o' m' Hmbs). clear IH.
  destruct o as [| r | h | w], mb as [i | | | v];
    simpl in *; unfold bind, ret, Matrix_index, RowProxy_index in E;
    try discriminate; try (injection E as _ <-; reflexivity).
  unfold CellProxy_read in E.
  destruct (Matrix_find (x_ h) (y_ h) m); now injection E as _ <-.
Qed.

(** The class that [chain_type] gives a chain is the class of the object
    that [chain_call] ends with. *)
Lemma member_call_class (mb : @member T) (q q' : cv) (c' : class)
    (o : object) (m : Matrix) :
  member_type mb q (class_of o) = Some (q', c') ->
  class_of (result (member_call Default mb o) m) = c'.
Proof.
  destruct o as [| r | h | w], mb as [i | | | v], q; simpl;
    intros [= <- <-]; try reflexivity.
  all: unfold result, bind, CellProxy_read;
    now destruct (Matrix_find (x_ h) (y_ h) m).
Qed.

Lemma chain_call_class (mbs : list (@member T)) (q q' : cv) (c' : class)
    (o : object) (m : Matrix) :
  chain_type mbs q (class_of o) = Some (q', c') ->
  class_of (result (chain_call Default mbs o) m) = c'.
Proof.
  revert q o m. induction mbs as [| mb mbs IH]; intros q o m; simpl.
  - now intros [= _ <-].
  - destruct (member_type mb q (class_of o)) as [[q1 c1] |] eqn:E;
      [| discriminate].
    intros Hrest. pose proof (member_call_class _ _ _ _ _ m E) as Hc1.
    unfold result, bind in *.
    destruct (member_call Default mb o m) as [o1 m1]. simpl in Hc1. subst c1.
    exact (IH _ _ _ Hrest).
Qed.

End ConstFacts.

(** * The specification *)

Section Specification.

Context {T : Type} `{EqDecision T}.
Variable Default : T.

Local Abbreviation Matrix_set := (Matrix_set Default).
Local Abbreviation write := (write Default).
Local Abbreviation read := (read Default).
Local Abbreviation CellProxy_read := (CellProxy_read Default).
Local Abbreviation perform := (perform Default).
Local Abbreviation perform_all := (perform_all Default).

Implicit Types (m : @Matrix T) (x y : Index) (v : T).

(** Claim C1.  Whatever sequence of operations is performed on a new matrix,
    no entry of the map holds [Default], and one more operation keeps it so.
    A write of [Default] leaves no entry at its coordinate: it removes the
    entry when there is one (the size drops by one) and leaves the matrix as
    it is when there is none. *)
Theorem no_default_entries_invariant (os : list operation) (o : operation) x y :
  let m := perform_all os Matrix_new in
  no_default Default m /\
  no_default Default (perform o m) /\
  Matrix_find x y (final (write x y Default) m) = None /\
  match Matrix_find x y m with
  | Some _ => S (Matrix_size (final (write x y Default) m)) = Matrix_size m
  | None => final (write x y Default) m = m
  end.
Proof.
  intros m.
  assert (Hwf : wf m) by apply perform_all_wf, Matrix_new_wf.
  assert (Hnd : no_default Default m).
  { apply perform_all_no_default. constructor. }
  repeat split.
  - exact Hnd.
  - now apply perform_no_default.
  - rewrite write_final, (find_set_same Default _ _ _ _ Hwf).
    now destruct (decide (Default = Default)).
  - rewrite write_final. unfold Matrix_find, Matrix_set, Matrix_size.
    destruct (decide (Default = Default)) as [_ |]; [| contradiction].
    destruct (map_find (Key.mk x y) (data_ m)) eqn:E; [| reflexivity].
    simpl. apply length_erase_present. rewrite E. now eexists.
Qed.

(** Claim C3.  After [matrix[x][y] = v] with [v] other than [Default], reading
    [matrix[x][y]] gives [v], and [size()] has grown by exactly one when the
    cell was not occupied before. *)
Theorem write_read_round_trip m x y v :
  v <> Default ->
  result (read x y) (final (write x y v) m) = v /\
  (Matrix_find x y m = None ->
   Matrix_size (final (write x y v) m) = S (Matrix_size m)).
Proof.
  intros Hv. split.
  - now rewrite read_result, write_final, find_set_stored.
  - intros Hfree. rewrite write_final. unfold Matrix_set, Matrix_size.
    destruct (decide (v = Default)); [contradiction |].
    simpl. now apply length_assign_absent.
Qed.

(** Claim C4.  Writing [Default] to an occupied cell lowers [size()] by exactly
    one, and the cell then reads as [Default]; writing [Default] to a cell that
    is not occupied leaves [size()] as it was. *)
Theorem default_write_elides_storage m x y :
  wf m ->
  result (read x y) (final (write x y Default) m) = Default /\
  (is_Some (Matrix_find x y m) ->
   S (Matrix_size (final (write x y Default) m)) = Matrix_size m) /\
  (Matrix_find x y m = None ->
   Matrix_size (final (write x y Default) m) = Matrix_size m).
Proof.
  intros Hm. rewrite read_result, write_final. repeat split.
  - rewrite (find_set_same Default _ _ _ _ Hm).
    now destruct (decide (Default = Default)).
  - intros Hocc. unfold Matrix_set, Matrix_size, Matrix_find in *.
    destruct (decide (Default = Default)) as [_ |]; [| contradiction].
    destruct Hocc as [w Hw]. rewrite Hw. simpl.
    apply length_erase_present. rewrite Hw. now eexists.
  - intros Hfree. unfold Matrix_set, Matrix_find in *.
    destruct (decide (Default = Default)) as [_ |]; [| contradiction].
    now rewrite Hfree.
Qed.

(** Claim C5.  Reading [matrix[x][y]] gives the value of the entry that
    [data_] holds for [(x, y)] when there is one, and [Default] when [data_]
    holds no entry for [(x, y)].  A proxy keeps no value: one made in a state
    [m0] and converted in a later state [m] gives what [data_] holds in [m],
    and after a write of [v] through another proxy it reads [v]. *)
Theorem read_reflects_storage (m0 : @Matrix T) m x y v :
  wf m ->
  let c := result (cell x y) m0 in
  (forall w, (Key.mk x y, w) ∈ data_ m ->
     result (read x y) m = w /\ result (CellProxy_read c) m = w) /\
  ((forall w, (Key.mk x y, w) ∉ data_ m) ->
     result (read x y) m = Default /\ result (CellProxy_read c) m = Default) /\
  result (CellProxy_read c) (final (write x y v) m) = v.
Proof.
  intros Hm c.
  assert (Hocc : forall w, (Key.mk x y, w) ∈ data_ m -> result (read x y) m = w).
  { intros w Hin. apply (find_elem_of _ _ _ Hm) in Hin.
    rewrite read_result. unfold Matrix_find. now rewrite Hin. }
  assert (Habs : (forall w, (Key.mk x y, w) ∉ data_ m) ->
                 result (read x y) m = Default).
  { intros Habsent. rewrite read_result. unfold Matrix_find.
    destruct (map_find (Key.mk x y) (data_ m)) as [w |] eqn:E; [| reflexivity].
    apply (find_elem_of _ _ _ Hm) in E. now destruct (Habsent w). }
  assert (Hwritten : result (read x y) (final (write x y v) m) = v).
  { rewrite read_result, write_final, (find_set_same Default _ _ _ _ Hm).
    now destruct (decide (v = Default)). }
  split; [| split].
  - intros w Hin. split; exact (Hocc w Hin).
  - intros Habsent. split; exact (Habs Habsent).
  - exact Hwritten.
Qed.

(** Claim C7.  [matrix[x]], [row[y]] and the conversion of a cell proxy to
    [T] leave the map as it is, and with it [size()]. *)
Theorem accessors_leave_storage_unchanged m x y (r : RowProxy) (c : CellProxy) :
  final (Matrix_index x) m = m /\
  final (RowProxy_index r y) m = m /\
  final (CellProxy_read c) m = m /\
  final (read x y) m = m /\
  Matrix_size (final (read x y) m) = Matrix_size m.
Proof.
  assert (Hread : forall h, final (CellProxy_read h) m = m).
  { intros h. unfold final, CellProxy_read.
    now destruct (Matrix_find (x_ h) (y_ h) m). }
  repeat split; try apply Hread; now rewrite ?read_final.
Qed.

(** Claim C9.  A write to [(x, y)] changes what is read at no other
    coordinate [(x', y')]. *)
Theorem write_affects_only_its_coordinate m x y x' y' v :
  wf m -> (x', y') <> (x, y) ->
  result (read x' y') (final (write x y v) m) = result (read x' y') m.
Proof.
  intros Hm Hne. rewrite !read_result, write_final.
  now rewrite (find_set_other Default _ _ _ _ _ _ Hm Hne).
Qed.

(** Claim C10.  Overwriting an occupied cell with a value other than
    [Default] leaves [size()] as it was. *)
Theorem overwrite_keeps_count m x y v :
  is_Some (Matrix_find x y m) -> v <> Default ->
  Matrix_size (final (write x y v) m) = Matrix_size m.
Proof.
  intros Hocc Hv. rewrite write_final. unfold Matrix_set, Matrix_size.
  destruct (decide (v = Default)); [contradiction |].
  simpl. now apply length_assign_present.
Qed.

End Specification.

Section Traversal.

Context {T : Type} `{EqDecision T}.
Variable Default : T.

Lemma Matrix_set_stored x y (v : T) (m : Matrix) :
  v <> Default ->
  Matrix_set Default x y v m
  = {| data_ := map_assign (Key.mk x y) v (data_ m) |}.
Proof.
  intros Hv. unfold Matrix_set. now destruct (decide (v = Default)).
Qed.

(** Claim C6.  A traversal of the matrix ends and gives one triple
    [(x, y, value)] for each occupied cell and nothing else, ascending by [x]
    and then by [y]; there are [size()] triples.  After [a], [b] and [c], all
    other than [Default], have been written to (2,1), (1,5) and (1,2) of a new
    matrix, in whatever order, the traversal gives (1,2,c), (1,5,b), (2,1,a). *)
Theorem traversal_order_and_completeness
    (m : @Matrix T) (a b c : T) (ws : list operation) :
  wf m ->
  a <> Default -> b <> Default -> c <> Default ->
  ws ≡ₚ [Write 2 1 a; Write 1 5 b; Write 1 2 c] ->
  (exists ts,
      traverse (Matrix_size m) m = Some ts /\
      (forall x y v, (x, y, v) ∈ ts <-> Matrix_find x y m = Some v) /\
      NoDup (fst <$> ts) /\
      StronglySorted triple_lt ts /\
      length ts = Matrix_size m) /\
  (let m3 := perform_all Default ws Matrix_new in
   traverse (Matrix_size m3) m3 = Some [(1, 2, c); (1, 5, b); (2, 1, a)] /\
   Matrix_size m3 = 3%nat).
Proof.
  intros Hm Ha Hb Hc Hws. split.
  - eexists. split; [apply traverse_all; reflexivity |].
    pose proof (ascending_triples _ Hm) as Hsorted.
    repeat split.
    + now apply triples_find.
    + now apply triples_find.
    + now apply triples_NoDup.
    + exact Hsorted.
    + unfold Matrix_size. now rewrite length_fmap.
  - symmetry in Hws. apply permutations_Permutation in Hws.
    cbn in Hws.
    repeat (apply elem_of_cons in Hws as [-> | Hws]);
      try (now apply elem_of_nil in Hws);
      cbn [perform_all fold_left perform];
      rewrite !write_final, !Matrix_set_stored by assumption;
      split; reflexivity.
Qed.

End Traversal.

(** * [Matrix<int, 0>] *)

Section IntMatrix.

Local Abbreviation new := (@Matrix_new Z).
Local Abbreviation at_100_100 := (chained 0 100 100 314 0 217).

(** Claim C2.  [operator=] of a cell proxy writes its value through [set] and
    returns the proxy it was called on.  So
    [((matrix[100][100] = 314) = 0) = 217], after whatever operations, leaves
    the matrix as the single write of 217 would: the cell reads 217, and on a
    new matrix [size()] is 1. *)
Theorem chained_assignment_last_value_wins
    (c : CellProxy) (v : Z) (m0 : Matrix) (os : list operation) :
  CellProxy_assign 0 c v m0 = (c, Matrix_set 0 (x_ c) (y_ c) v m0) /\
  (let m := perform_all 0 os new in
   result at_100_100 m = mkCellProxy 100 100 /\
   final at_100_100 m = final (write 0 100 100 217) m /\
   result (read 0 100 100) (final at_100_100 m) = 217) /\
  result (read 0 100 100) (final at_100_100 new) = 217 /\
  Matrix_size (final at_100_100 new) = 1%nat.
Proof.
  split; [reflexivity |]. split; [| split; reflexivity].
  intros m.
  assert (Hwf : wf m) by apply perform_all_wf, Matrix_new_wf.
  assert (Hchain : final at_100_100 m = final (write 0 100 100 217) m)
    by (apply chained_through_default; [exact Hwf | discriminate | discriminate]).
  repeat split.
  - exact Hchain.
  - rewrite Hchain, read_result, write_final.
    now rewrite find_set_stored by discriminate.
Qed.

(** Claim C8.  A const matrix can be written: [cm[1][2] = 5] is refused for
    a [const Matrix<int, 0>& cm], yet a copy of the proxy [cm[1][2]] is not
    const, is bound to the matrix through [const_cast], and accepts the
    assignment, which stores 5 in the matrix. *)
Theorem const_container_written_through_copied_proxy :
  chain_type [Subscript 1; Subscript 2; Assign 5] Const CMatrix = None /\
  chain_type [Subscript 1; Subscript 2; Copy; Assign 5] Const CMatrix
  = Some (NonConst, CCellProxy) /\
  Matrix_find 1 2 new = None /\
  Matrix_find 1 2
    (final (chain_call 0 [Subscript 1; Subscript 2; Copy; Assign 5] TheMatrix)
       new)
  = Some 5.
Proof. repeat split. Qed.

End IntMatrix.

(** * Instances of the statements *)

Local Abbreviation two_cells :=
  ({| data_ := [(Key.mk 1 2, 9); (Key.mk 1 5, 8)] |}).

Lemma write_read_round_trip_witness :
  7 <> 0 /\
  result (read 0 3 4) (final (write 0 3 4 7) Matrix_new) = 7 /\
  Matrix_size (final (write 0 3 4 7) (@Matrix_new Z)) = 1%nat.
Proof.
  assert (H7 : 7 <> 0) by lia.
  destruct (write_read_round_trip 0 Matrix_new 3 4 7 H7) as [Hread Hsize].
  split; [exact H7 |]. split; [exact Hread | exact (Hsize eq_refl)].
Defined.

Lemma read_reflects_storage_witness :
  wf two_cells /\
  result (read 0 1 5) two_cells = 8 /\
  result (read 0 4 4) two_cells = 0 /\
  result (CellProxy_read 0 (result (cell 1 5) (@Matrix_new Z)))
    (final (write 0 1 5 3) two_cells)
  = 3.
Proof.
  assert (Hm : wf two_cells) by reflexivity.
  destruct (read_reflects_storage 0 Matrix_new two_cells 1 5 3 Hm)
    as [Hocc [_ Hwritten]].
  destruct (read_reflects_storage 0 Matrix_new two_cells 4 4 0 Hm)
    as [_ [Habsent _]].
  split; [exact Hm |]. split; [| split].
  - apply (Hocc 8). simpl. repeat constructor.
  - apply Habsent. intros w Hin. simpl in Hin.
    rewrite !elem_of_cons, elem_of_nil in Hin.
    destruct Hin as [[=] | [[=] | []]].
  - exact Hwritten.
Defined.

Lemma default_write_elides_storage_witness :
  wf two_cells /\
  result (read 0 1 5) (final (write 0 1 5 0) two_cells) = 0 /\
  Matrix_size (final (write 0 1 5 0) two_cells) = 1%nat /\
  Matrix_size (final (write 0 4 4 0) two_cells) = 2%nat.
Proof.
  pose (m := two_cells).
  assert (Hm : wf m) by reflexivity.
  destruct (default_write_elides_storage 0 m 1 5 Hm) as [Hread [Hocc _]].
  destruct (default_write_elides_storage 0 m 4 4 Hm) as [_ [_ Hfree]].
  split; [exact Hm |]. split; [exact Hread |]. split.
  - assert (Hsome : is_Some (Matrix_find 1 5 m)) by (exists 8; reflexivity).
    exact (Nat.succ_inj _ _ (Hocc Hsome)).
  - exact (Hfree eq_refl).
Defined.

Lemma traversal_order_and_completeness_witness :
  wf two_cells /\
  [Write 1 5 22; Write 1 2 33; Write 2 1 11]
    ≡ₚ [Write 2 1 11; Write 1 5 22; Write 1 2 33] /\
  (exists ts,
      traverse (Matrix_size two_cells) two_cells = Some ts /\
      length ts = 2%nat) /\
  traverse 3
    (perform_all 0 [Write 1 5 22; Write 1 2 33; Write 2 1 11] Matrix_new)
  = Some [(1, 2, 33); (1, 5, 22); (2, 1, 11)].
Proof.
  pose (m := two_cells).
  pose (ws := [Write 1 5 22; Write 1 2 33; Write 2 1 11]).
  assert (Hm : wf m) by reflexivity.
  assert (Hws : ws ≡ₚ [Write 2 1 11; Write 1 5 22; Write 1 2 33]).
  { unfold ws. symmetry. apply Permutation_cons_append. }
  destruct (traversal_order_and_completeness 0 m 11 22 33 ws Hm
              ltac:(lia) ltac:(lia) ltac:(lia) Hws)
    as [[ts [Hts [_ [_ [_ Hlen]]]]] [Hex _]].
  split; [exact Hm |]. split; [exact Hws |]. split; [| exact Hex].
  exists ts. split; [exact Hts | exact Hlen].
Defined.

Lemma write_affects_only_its_coordinate_witness :
  wf two_cells /\ (1, 5) <> (1, 2) /\
  result (read 0 1 5) (final (write 0 1 2 0) two_cells) = 8.
Proof.
  pose (m := two_cells).
  assert (Hm : wf m) by reflexivity.
  assert (Hne : (1, 5) <> (1, 2)) by discriminate.
  split; [exact Hm |]. split; [exact Hne |].
  exact (write_affects_only_its_coordinate 0 m 1 2 1 5 0 Hm Hne).
Defined.

Lemma overwrite_keeps_count_witness :
  is_Some (Matrix_find 1 2 two_cells) /\ 4 <> 0 /\
  Matrix_size (final (write 0 1 2 4) two_cells) = 2%nat.
Proof.
  pose (m := two_cells).
  assert (Hocc : is_Some (Matrix_find 1 2 m)) by (exists 9; reflexivity).
  assert (H4 : 4 <> 0) by lia.
  split; [exact Hocc |]. split; [exact H4 |].
  exact (overwrite_keeps_count 0 m 1 2 4 Hocc H4).
Defined.

(** * Further properties of the code *)

(** ** The map is determined by what [find] gives *)

Section MapExtensionality.

Context {T : Type}.
Implicit Types (k : Key.t) (v : T) (m : Map T).

Lemma find_head k v m : map_find k ((k, v) :: m) = Some v.
Proof. simpl. now rewrite KeyFacts.cmp_refl. Qed.

Lemma find_tail k k1 v1 m :
  Key.lt k1 k = true -> map_find k ((k1, v1) :: m) = map_find k m.
Proof. intros Hk. simpl. now rewrite (KeyFacts.cmp_gt _ _ Hk). Qed.

Lemma find_elem_above k k1 m :
  Forall (fun kv => Key.lt k1 (fst kv) = true) m ->
  Key.lt k1 k = false -> map_find k m = None.
Proof.
  intros Habove Hk. destruct m as [| [k2 v2] m]; [reflexivity |].
  apply Forall_cons in Habove as [H2 _]. simpl in *.
  destruct (KeyFacts.cmp_case k k2) as [_ _ | -> | Hgt _]; [reflexivity | |].
  - congruence.
  - rewrite (KeyFacts.lt_trans _ _ _ H2 Hgt) in Hk. discriminate.
Qed.

Lemma map_ext m1 m2 :
  ascending m1 = true -> ascending m2 = true ->
  (forall k, map_find k m1 = map_find k m2) -> m1 = m2.
Proof.
  revert m2. induction m1 as [| [k1 v1] m1 IH]; intros [| [k2 v2] m2] H1 H2 Hfind.
  - reflexivity.
  - specialize (Hfind k2). rewrite find_head in Hfind. discriminate.
  - specialize (Hfind k1). rewrite find_head in Hfind. discriminate.
  - apply ascending_cons in H1 as [Hab1 H1].
    apply ascending_cons in H2 as [Hab2 H2].
    assert (k1 = k2) as <-.
    { pose proof (Hfind k1) as Hk1. pose proof (Hfind k2) as Hk2.
      rewrite find_head in Hk1, Hk2. simpl in Hk1, Hk2.
      destruct (KeyFacts.cmp_case k1 k2) as [Hlt _ | Heq | Hgt _];
        [discriminate | exact Heq |].
      rewrite (KeyFacts.cmp_lt _ _ Hgt) in Hk2. discriminate. }
    pose proof (Hfind k1) as Hv. rewrite !find_head in Hv.
    injection Hv as <-. f_equal. apply IH; try assumption.
    intros k. destruct (Key.lt k1 k) eqn:Hk.
    + specialize (Hfind k). now rewrite !find_tail in Hfind.
    + now rewrite (find_elem_above _ _ _ Hab1 Hk), (find_elem_above _ _ _ Hab2 Hk).
Qed.

(** *** How far an update moves the size *)

Lemma length_assign_le k v m : (length (map_assign k v m) <= S (length m))%nat.
Proof.
  induction m as [| [k1 v1] m IH]; simpl; [lia |].
  destruct (Key.cmp k k1); simpl; lia.
Qed.

Lemma length_erase_le k m : (length (map_erase k m) <= length m)%nat.
Proof.
  induction m as [| [k1 v1] m IH]; simpl; [lia |].
  destruct (Key.cmp k k1); simpl; lia.
Qed.

End MapExtensionality.

(** ** How writes compose *)

Section Composition.

Context {T : Type} `{EqDecision T}.
Variable Default : T.

Implicit Types (m : @Matrix T) (x y : Index) (v : T).

Lemma Matrix_ext m1 m2 :
  wf m1 -> wf m2 ->
  (forall x y, Matrix_find x y m1 = Matrix_find x y m2) -> m1 = m2.
Proof.
  destruct m1 as [d1], m2 as [d2]. unfold wf, Matrix_find. simpl.
  intros H1 H2 Hfind. f_equal. apply map_ext; try assumption.
  intros [kx ky]. apply Hfind.
Qed.

Lemma find_set x y x' y' v m :
  wf m ->
  Matrix_find x' y' (Matrix_set Default x y v m)
  = if decide ((x', y') = (x, y))
    then (if decide (v = Default) then None else Some v)
    else Matrix_find x' y' m.
Proof.
  intros Hm. destruct (decide ((x', y') = (x, y))) as [[= -> ->] | Hne].
  - now apply find_set_same.
  - now apply find_set_other.
Qed.

Lemma set_set_same x y a b m :
  wf m ->
  Matrix_set Default x y b (Matrix_set Default x y a m)
  = Matrix_set Default x y b m.
Proof.
  intros Hm. apply Matrix_ext; repeat apply Matrix_set_wf; try assumption.
  intros x' y'. rewrite !find_set by (repeat apply Matrix_set_wf; assumption).
  now destruct (decide ((x', y') = (x, y))).
Qed.

Lemma set_set_other x1 y1 x2 y2 a b m :
  wf m -> (x1, y1) <> (x2, y2) ->
  Matrix_set Default x2 y2 b (Matrix_set Default x1 y1 a m)
  = Matrix_set Default x1 y1 a (Matrix_set Default x2 y2 b m).
Proof.
  intros Hm Hne. apply Matrix_ext; repeat apply Matrix_set_wf; try assumption.
  intros x' y'. rewrite !find_set by (repeat apply Matrix_set_wf; assumption).
  destruct (decide ((x', y') = (x2, y2))) as [E2 |];
    destruct (decide ((x', y') = (x1, y1))) as [E1 |]; try reflexivity.
  congruence.
Qed.

Lemma set_default_absent x y m :
  Matrix_find x y m = None -> Matrix_set Default x y Default m = m.
Proof.
  unfold Matrix_find, Matrix_set. intros ->.
  now destruct (decide (Default = Default)).
Qed.

Lemma size_set_le x y v m :
  (Matrix_size (Matrix_set Default x y v m)
   <= Matrix_size m + (if decide (v = Default) then 0 else 1))%nat.
Proof.
  unfold Matrix_size, Matrix_set. destruct (decide (v = Default)); simpl.
  - destruct (map_find _ _); simpl; [| lia].
    pose proof (length_erase_le (Key.mk x y) (data_ m)). lia.
  - pose proof (length_assign_le (Key.mk x y) v (data_ m)). lia.
Qed.

Lemma find_no_default x y v m :
  wf m -> no_default Default m -> Matrix_find x y m = Some v -> v <> Default.
Proof.
  unfold wf, no_default, Matrix_find. intros Hm Hnd Hf.
  apply (find_elem_of _ _ _ Hm) in Hf.
  rewrite Forall_forall in Hnd. exact (Hnd _ Hf).
Qed.

End Composition.

Section Laws.

Context {T : Type} `{EqDecision T}.
Variable Default : T.

Local Abbreviation write := (write Default).
Local Abbreviation read := (read Default).

Implicit Types (m : @Matrix T) (x y : Index) (v : T).

(** Property X1.  [Key::operator<] is a strict total order on coordinate
    pairs: no key is below itself, the order is transitive, and two keys of
    which neither is below the other are the same pair, so that the map never
    takes two different coordinates for one. *)
Theorem Key_lt_strict_total_order (a b c : Key.t) :
  Key.lt a a = false /\
  (Key.lt a b = true -> Key.lt b c = true -> Key.lt a c = true) /\
  (Key.lt a b = false /\ Key.lt b a = false <-> a = b).
Proof.
  split; [apply KeyFacts.lt_irrefl |]. split; [apply KeyFacts.lt_trans |].
  split.
  - intros [Hab Hba]. now apply KeyFacts.lt_total.
  - intros <-. split; apply KeyFacts.lt_irrefl.
Qed.

(** Property X3.  Of two writes to one coordinate the second decides the
    state: the matrix is what the second write alone would have left,
    whether either value is [Default] or not. *)
Theorem last_write_wins m x y (a b : T) :
  wf m ->
  final (write x y b) (final (write x y a) m) = final (write x y b) m.
Proof. intros Hm. rewrite !write_final. now apply set_set_same. Qed.

(** Property X4.  Writing a value to a cell that is not occupied and then
    writing [Default] to it gives back the matrix as it was. *)
Theorem write_then_clear_restores m x y v :
  wf m -> Matrix_find x y m = None ->
  final (write x y Default) (final (write x y v) m) = m.
Proof.
  intros Hm Hfree. rewrite !write_final, set_set_same by assumption.
  now apply set_default_absent.
Qed.

(** Property X5.  Writes to two different coordinates can be made in either
    order: the matrix they leave is the same. *)
Theorem writes_at_distinct_coordinates_commute m x1 y1 x2 y2 (a b : T) :
  wf m -> (x1, y1) <> (x2, y2) ->
  final (write x2 y2 b) (final (write x1 y1 a) m)
  = final (write x1 y1 a) (final (write x2 y2 b) m).
Proof. intros Hm Hne. rewrite !write_final. now apply set_set_other. Qed.

(** Property X6.  Two matrices that hold no [Default] and read the same at
    every coordinate are the same matrix, and so have the same size and the
    same traversal. *)
Theorem equal_reads_equal_matrices m1 m2 :
  wf m1 -> no_default Default m1 ->
  wf m2 -> no_default Default m2 ->
  (forall x y, result (read x y) m1 = result (read x y) m2) ->
  m1 = m2.
Proof.
  intros Hw1 Hn1 Hw2 Hn2 Hread. apply Matrix_ext; try assumption.
  intros x y. specialize (Hread x y). rewrite !read_result in Hread.
  destruct (Matrix_find x y m1) as [v1 |] eqn:E1,
           (Matrix_find x y m2) as [v2 |] eqn:E2; simpl in Hread.
  - congruence.
  - now destruct (find_no_default Default _ _ _ _ Hw1 Hn1 E1).
  - symmetry in Hread. now destruct (find_no_default Default _ _ _ _ Hw2 Hn2 E2).
  - reflexivity.
Qed.

(** Property X10.  After any sequence of operations on a new matrix,
    [size()] is at most the number of writes of a value other than [Default]
    among them: reads, however many and wherever, store nothing. *)
Theorem size_bounded_by_stores (os : list operation) :
  (Matrix_size (perform_all Default os Matrix_new)
   <= length (List.filter (stores Default) os))%nat.
Proof.
  assert (Hgen : forall m : @Matrix T,
             (Matrix_size (perform_all Default os m)
              <= Matrix_size m + length (List.filter (stores Default) os))%nat).
  { induction os as [| o os' IH]; intros m; simpl; [lia |].
    specialize (IH (perform Default o m)).
    assert (Hstep : (Matrix_size (perform Default o m)
                     <= Matrix_size m + (if stores Default o then 1 else 0))%nat).
    { destruct o as [x y v | x y | |]; simpl; try lia.
      - rewrite write_final. pose proof (size_set_le Default x y v m).
        destruct (decide (v = Default)); simpl; lia.
      - rewrite read_final. lia. }
    unfold perform_all in *. destruct (stores Default o); simpl; lia. }
  exact (Hgen Matrix_new).
Qed.

End Laws.

Section Observation.

Context {T : Type} `{EqDecision T}.
Variable Default : T.

Local Abbreviation write := (write Default).
Local Abbreviation read := (read Default).

Implicit Types (m : @Matrix T) (x y : Index) (v : T).

(** Property X2.  In every state that operations on a new matrix reach, a
    cell reads as something other than [Default] exactly when it is occupied,
    and the traversal lists exactly the cells that do, each with the value
    it reads as. *)
Theorem traversal_lists_the_non_default_reads (os : list operation) x y :
  let m := perform_all Default os Matrix_new in
  (result (read x y) m <> Default <-> is_Some (Matrix_find x y m)) /\
  exists ts,
    traverse (Matrix_size m) m = Some ts /\
    forall x' y' v,
      (x', y', v) ∈ ts <-> v <> Default /\ result (read x' y') m = v.
Proof.
  intros m.
  assert (Hwf : wf m) by apply perform_all_wf, Matrix_new_wf.
  assert (Hnd : no_default Default m).
  { apply perform_all_no_default. constructor. }
  split.
  - rewrite read_result. destruct (Matrix_find x y m) as [w |] eqn:E; simpl.
    + split; [now eexists |]. intros _.
      exact (find_no_default Default _ _ _ _ Hwf Hnd E).
    + split; [congruence |]. intros [w Hw]. discriminate.
  - eexists. split; [apply traverse_all; reflexivity |].
    intros x' y' v. rewrite (triples_find _ _ _ _ Hwf), read_result.
    destruct (Matrix_find x' y' m) as [w |] eqn:E; simpl.
    + split.
      * intros [= ->]. split; [| reflexivity].
        exact (find_no_default Default _ _ _ _ Hwf Hnd E).
      * now intros [_ ->].
    + split; [discriminate |]. intros [Hv Hd]. congruence.
Qed.

(** *** Positions *)





(** Property X11.  A write changes the traversal at its own coordinate only:
    the triples after [matrix[x][y] = v] are those from before at other
    coordinates, with [(x, y, v)] among them when [v] is not [Default]. *)
Theorem traversal_after_write m x y v :
  wf m ->
  exists ts ts',
    traverse (Matrix_size m) m = Some ts /\
    traverse (Matrix_size (final (write x y v) m)) (final (write x y v) m)
    = Some ts' /\
    ts' ≡ₚ (if decide (v = Default) then [] else [(x, y, v)])
           ++ filter (fun t => fst t <> (x, y)) ts.
Proof.
  intros Hm.
  assert (Hm' : wf (final (write x y v) m))
    by (rewrite write_final; now apply Matrix_set_wf).
  eexists. eexists.
  split; [apply traverse_all; reflexivity |].
  split; [apply traverse_all; reflexivity |].
  apply NoDup_Permutation.
  - eapply NoDup_fmap_1. apply triples_NoDup. now apply ascending_triples.
  - apply NoDup_app. repeat split.
    + destruct (decide (v = Default)); [constructor | apply NoDup_singleton].
    + intros t Ht Hin. apply list_elem_of_filter in Hin as [Hne _].
      destruct (decide (v = Default)); [now apply elem_of_nil in Ht |].
      apply list_elem_of_singleton in Ht as ->. now apply Hne.
    + apply NoDup_filter. eapply NoDup_fmap_1.
      apply triples_NoDup. now apply ascending_triples.
  - intros [[x' y'] w].
    rewrite (triples_find _ _ _ _ Hm'), write_final, (find_set Default) by assumption.
    rewrite elem_of_app, list_elem_of_filter, (triples_find _ _ _ _ Hm).
    simpl.
    destruct (decide ((x', y') = (x, y))) as [E | Hne].
    + injection E as -> ->.
      destruct (decide (v = Default)).
      * split; [discriminate |]. intros [Hin | [Hne _]];
          [now apply elem_of_nil in Hin | now destruct Hne].
      * rewrite list_elem_of_singleton. split.
        -- intros [= ->]. now left.
        -- intros [[= ->] | [Hne _]]; [reflexivity | now destruct Hne].
    + split.
      * intros Hf. right. now split.
      * intros [Hin | [_ Hf]]; [| exact Hf].
        destruct (decide (v = Default)); [now apply elem_of_nil in Hin |].
        apply list_elem_of_singleton in Hin. congruence.
Qed.

End Observation.

Section Chains.

Context {T : Type} `{EqDecision T}.
Variable Default : T.

Implicit Types (m : @Matrix T) (x y : Index) (v : T).

Lemma assign_chain_call (vs : list T) (c : CellProxy) m :
  chain_call Default (Assign <$> vs) (ACell c) m
  = (ACell c,
     fold_left (fun m' v => Matrix_set Default (x_ c) (y_ c) v m') vs m).
Proof.
  revert m. induction vs as [| v vs IH]; intros m; [reflexivity |].
  rewrite fmap_cons. simpl. unfold bind at 1. simpl. apply IH.
Qed.

Lemma assign_chain_type (vs : list T) :
  chain_type (Assign <$> vs) NonConst CCellProxy = Some (NonConst, CCellProxy).
Proof. induction vs as [| v vs IH]; [reflexivity | exact IH]. Qed.

Lemma fold_set_last (vs : list T) x y m :
  wf m ->
  fold_left (fun m' v => Matrix_set Default x y v m') vs m
  = match last vs with
    | Some v => Matrix_set Default x y v m
    | None => m
    end.
Proof.
  revert m. induction vs as [| v vs IH]; intros m Hm; [reflexivity |].
  simpl fold_left. rewrite IH by now apply Matrix_set_wf.
  rewrite last_cons. destruct (last vs) as [w |]; [| reflexivity].
  now apply set_set_same.
Qed.

(** Property X8.  A chain of member calls on a const matrix that the
    compiler accepts and that copies no proxy leaves the matrix as it is:
    through the proxies themselves a const matrix can only be read. *)
Theorem const_chain_without_copy_keeps_matrix (mbs : list (@member T)) m :
  forallb (fun mb => negb (is_copy mb)) mbs = true ->
  is_Some (chain_type mbs Const CMatrix) ->
  final (chain_call Default mbs TheMatrix) m = m.
Proof.
  intros Hcopy Hok. apply chain_without_assign.
  exact (const_chain_never_assigns mbs CMatrix Hcopy Hok).
Qed.

(** Property X9.  On a matrix that is not const, a chain of assignments of
    any length to [matrix[x][y]] is accepted, ends in the proxy for [(x, y)],
    and leaves the matrix as the last assignment alone would; without any
    assignment the matrix stays as it is. *)
Theorem assignment_chain_resolves_to_last (vs : list T) x y m :
  wf m ->
  chain_type (assignments x y vs) NonConst CMatrix
  = Some (NonConst, CCellProxy) /\
  result (chain_call Default (assignments x y vs) TheMatrix) m
  = ACell (mkCellProxy x y) /\
  final (chain_call Default (assignments x y vs) TheMatrix) m
  = match last vs with
    | Some v => final (write Default x y v) m
    | None => m
    end.
Proof.
  intros Hm. split; [exact (assign_chain_type vs) |].
  assert (Hcall : chain_call Default (assignments x y vs) TheMatrix m
                  = chain_call Default (Assign <$> vs) (ACell (mkCellProxy x y)) m)
    by reflexivity.
  unfold result, final. rewrite Hcall, assign_chain_call. simpl.
  split; [reflexivity |]. now apply fold_set_last.
Qed.

End Chains.

(** * Instances of the further properties *)

Local Abbreviation cells_1_2_and_1_5 :=
  ({| data_ := [(Key.mk 1 2, 9); (Key.mk 1 5, 8)] |}).

Lemma Key_lt_strict_total_order_witness :
  Key.lt (Key.mk 1 2) (Key.mk 1 5) = true /\
  Key.lt (Key.mk 1 5) (Key.mk 2 1) = true /\
  Key.lt (Key.mk 1 2) (Key.mk 2 1) = true.
Proof.
  destruct (Key_lt_strict_total_order (Key.mk 1 2) (Key.mk 1 5) (Key.mk 2 1))
    as [_ [Htrans _]].
  split; [reflexivity |]. split; [reflexivity |].
  exact (Htrans eq_refl eq_refl).
Defined.

Lemma last_write_wins_witness :
  wf cells_1_2_and_1_5 /\
  final (write 0 1 5 0) (final (write 0 1 5 4) cells_1_2_and_1_5)
  = final (write 0 1 5 0) cells_1_2_and_1_5.
Proof.
  assert (Hm : wf cells_1_2_and_1_5) by reflexivity.
  split; [exact Hm |].
  exact (last_write_wins 0 cells_1_2_and_1_5 1 5 4 0 Hm).
Defined.

Lemma write_then_clear_restores_witness :
  wf cells_1_2_and_1_5 /\
  Matrix_find 1 3 cells_1_2_and_1_5 = None /\
  final (write 0 1 3 0) (final (write 0 1 3 6) cells_1_2_and_1_5)
  = cells_1_2_and_1_5.
Proof.
  assert (Hm : wf cells_1_2_and_1_5) by reflexivity.
  split; [exact Hm |]. split; [reflexivity |].
  exact (write_then_clear_restores 0 cells_1_2_and_1_5 1 3 6 Hm eq_refl).
Defined.

Lemma writes_at_distinct_coordinates_commute_witness :
  wf cells_1_2_and_1_5 /\ (1, 5) <> (0, 7) /\
  final (write 0 0 7 3) (final (write 0 1 5 0) cells_1_2_and_1_5)
  = final (write 0 1 5 0) (final (write 0 0 7 3) cells_1_2_and_1_5).
Proof.
  assert (Hm : wf cells_1_2_and_1_5) by reflexivity.
  assert (Hne : (1, 5) <> (0, 7)) by discriminate.
  split; [exact Hm |]. split; [exact Hne |].
  exact (writes_at_distinct_coordinates_commute
           0 cells_1_2_and_1_5 1 5 0 7 0 3 Hm Hne).
Defined.

Lemma equal_reads_equal_matrices_witness :
  perform_all 0 [Write 1 5 8; Write 7 7 3; Write 1 2 9; Write 7 7 0] Matrix_new
  = cells_1_2_and_1_5.
Proof.
  apply (equal_reads_equal_matrices 0).
  - reflexivity.
  - repeat constructor; simpl; lia.
  - reflexivity.
  - repeat constructor; simpl; lia.
  - intros x y. reflexivity.
Defined.

Lemma const_chain_without_copy_keeps_matrix_witness :
  is_Some (chain_type [Subscript 1; Subscript 5; @Convert Z] Const CMatrix) /\
  final (chain_call 0 [Subscript 1; Subscript 5; Convert] TheMatrix)
    cells_1_2_and_1_5
  = cells_1_2_and_1_5.
Proof.
  assert (Hok : is_Some (chain_type [Subscript 1; Subscript 5; @Convert Z]
                           Const CMatrix))
    by (eexists; reflexivity).
  split; [exact Hok |].
  exact (const_chain_without_copy_keeps_matrix 0
           [Subscript 1; Subscript 5; Convert] cells_1_2_and_1_5 eq_refl Hok).
Defined.

Lemma assignment_chain_resolves_to_last_witness :
  wf cells_1_2_and_1_5 /\
  final (chain_call 0 (assignments 1 5 [4; 0; 6; 2]) TheMatrix) cells_1_2_and_1_5
  = final (write 0 1 5 2) cells_1_2_and_1_5.
Proof.
  assert (Hm : wf cells_1_2_and_1_5) by reflexivity.
  split; [exact Hm |].
  exact (proj2 (proj2 (assignment_chain_resolves_to_last 0 [4; 0; 6; 2] 1 5
                         cells_1_2_and_1_5 Hm))).
Defined.

Lemma traversal_after_write_witness :
  wf cells_1_2_and_1_5 /\
  exists ts ts',
    traverse 2 cells_1_2_and_1_5 = Some ts /\
    traverse 3 (final (write 0 0 7 3) cells_1_2_and_1_5) = Some ts' /\
    ts' ≡ₚ [(0, 7, 3)] ++ filter (fun t => fst t <> (0, 7)) ts.
Proof.
  assert (Hm : wf cells_1_2_and_1_5) by reflexivity.
  split; [exact Hm |].
  exact (traversal_after_write 0 cells_1_2_and_1_5 0 7 3 Hm).
Defined.

(** * Rebuilding and reordering *)

Section Rebuild.

Context {T : Type} `{EqDecision T}.
Variable Default : T.

Implicit Types (m : @Matrix T) (d l : Map T).

Lemma ascending_prefix d l : ascending (d ++ l) = true -> ascending d = true.
Proof.
  induction d as [| [k v] d IH]; [reflexivity |].
  rewrite <- app_comm_cons. intros Hdl.
  apply ascending_cons in Hdl as [Habove Hdl].
  apply ascending_cons. apply Forall_app in Habove as [Habove _].
  split; [exact Habove | now apply IH].
Qed.

Lemma assign_last (k : Key.t) (v : T) d :
  ascending (d ++ [(k, v)]) = true -> map_assign k v d = d ++ [(k, v)].
Proof.
  induction d as [| [k1 v1] d IH]; [reflexivity |].
  rewrite <- app_comm_cons. intros Hd.
  apply ascending_cons in Hd as [Habove Hd].
  apply Forall_app in Habove as [_ Hk]. apply Forall_cons in Hk as [Hk _].
  simpl in *. rewrite (KeyFacts.cmp_gt _ _ Hk). now rewrite IH.
Qed.

Lemma write_entries l d :
  ascending (d ++ l) = true ->
  Forall (fun kv => snd kv <> Default) l ->
  perform_all Default
    (write_triple <$> ((fun kv => (Key.x (fst kv), Key.y (fst kv), snd kv)) <$> l))
    {| data_ := d |}
  = {| data_ := d ++ l |}.
Proof.
  revert d. induction l as [| [[kx ky] v] l IH]; intros d Hasc Hnd.
  - now rewrite app_nil_r.
  - apply Forall_cons in Hnd as [Hv Hnd]. simpl in Hv.
    rewrite !fmap_cons. unfold perform_all. simpl fold_left.
    rewrite write_final, Matrix_set_stored by exact Hv. simpl.
    rewrite cons_middle, app_assoc in Hasc.
    rewrite assign_last by exact (ascending_prefix _ _ Hasc).
    replace (d ++ (Key.mk kx ky, v) :: l)
      with ((d ++ [(Key.mk kx ky, v)]) ++ l) by now rewrite <- app_assoc.
    fold (perform_all Default). now apply IH.
Qed.

(** Property X12.  Writing the triples of a traversal, in the order of the
    traversal, to a new matrix gives the matrix that was traversed. *)
Theorem traversal_rebuilds_the_matrix m :
  wf m -> no_default Default m ->
  exists ts,
    traverse (Matrix_size m) m = Some ts /\
    perform_all Default (write_triple <$> ts) Matrix_new = m.
Proof.
  intros Hm Hnd. eexists. split; [apply traverse_all; reflexivity |].
  destruct m as [d]. now apply (write_entries d []).
Qed.

(** Property X13.  Writes to coordinates that all differ can be made in
    any order: every order leaves the same matrix. *)
Theorem writes_in_any_order (ts ts' : list (Index * Index * T)) m :
  wf m -> NoDup (fst <$> ts) -> ts ≡ₚ ts' ->
  perform_all Default (write_triple <$> ts) m
  = perform_all Default (write_triple <$> ts') m.
Proof.
  intros Hm Hnd Hperm. revert m Hm Hnd.
  induction Hperm as [| t ts ts' Hperm IH | t1 t2 ts | ts1 ts2 ts3 H12 IH12 H23 IH23];
    intros m Hm Hnd.
  - reflexivity.
  - rewrite !fmap_cons in *. apply NoDup_cons in Hnd as [_ Hnd].
    unfold perform_all in *. simpl. apply IH; [| exact Hnd].
    rewrite write_final. now apply Matrix_set_wf.
  - rewrite !fmap_cons in *. apply NoDup_cons in Hnd as [Hne _].
    rewrite not_elem_of_cons in Hne. destruct Hne as [Hne _].
    unfold perform_all. simpl. rewrite !write_final. f_equal.
    destruct t1 as [[x1 y1] v1], t2 as [[x2 y2] v2]. simpl in *.
    now apply set_set_other.
  - rewrite IH12 by assumption. apply IH23; [exact Hm |].
    now rewrite <- H12.
Qed.

End Rebuild.

Lemma traversal_rebuilds_the_matrix_witness :
  wf cells_1_2_and_1_5 /\
  exists ts,
    traverse 2 cells_1_2_and_1_5 = Some ts /\
    perform_all 0 (write_triple <$> ts) Matrix_new = cells_1_2_and_1_5.
Proof.
  assert (Hm : wf cells_1_2_and_1_5) by reflexivity.
  assert (Hnd : no_default 0 cells_1_2_and_1_5)
    by (repeat constructor; simpl; lia).
  split; [exact Hm |].
  exact (traversal_rebuilds_the_matrix 0 cells_1_2_and_1_5 Hm Hnd).
Defined.

Lemma writes_in_any_order_witness :
  wf cells_1_2_and_1_5 /\
  perform_all 0 (write_triple <$> [(3, 3, 1); (0, 7, 2); (1, 5, 0)])
    cells_1_2_and_1_5
  = perform_all 0 (write_triple <$> [(0, 7, 2); (1, 5, 0); (3, 3, 1)])
      cells_1_2_and_1_5.
Proof.
  assert (Hm : wf cells_1_2_and_1_5) by reflexivity.
  split; [exact Hm |].
  apply (writes_in_any_order 0 [(3, 3, 1); (0, 7, 2); (1, 5, 0)]
           [(0, 7, 2); (1, 5, 0); (3, 3, 1)] cells_1_2_and_1_5 Hm).
  - rewrite !fmap_cons, !NoDup_cons, !not_elem_of_cons, !elem_of_nil.
    simpl. repeat split; try discriminate; try tauto. apply NoDup_nil_2.
  - apply Permutation_cons_append.
Defined.

